(** * BM25 base index (package bm25, bm25.go)

    Shallow embedding of [Bm25Base]: construction ([NewBM25Base]), the
    accessors, the cached inverse document frequency ([IDF]) and the base
    scoring methods.

    Modelling choices:
    - Go [int] is [nat]: every int of this file is a slice length, an index
      or a sum of slice lengths, which stays far below 2^63.
    - [float64] is [R] and [math.Log] is [ln]: the IDF formulas are read
      over the reals.
    - Go maps are stdpp [gmap]s; a missing key reads as the zero value where
      the source uses [m[k]++].
    - The optional logger only prints; it changes no field and is omitted.
    - A Go error is the constructor of [error] naming its message. *)

From Stdlib Require Import Reals Lra Ascii Sorted.
From stdpp Require Import base gmap sets list strings.
Open Scope R_scope.

(** The errors returned by the package. *)
Inductive error :=
| ErrEmptyCorpus                     (* "corpus cannot be empty" *)
| ErrNilTokenizer                    (* "tokenizer function cannot be nil" *)
| ErrEmptyTokenization (i : nat)     (* "tokenizer function returned an empty slice for document at index %d" *)
| ErrEmptyTerm                       (* "term cannot be empty" *)
| ErrNotImplemented.                 (* "not implemented" *)

(** [(value, error)] results: [Ok] when the error is nil. *)
Inductive result (A : Type) :=
| Ok (a : A)
| Err (e : error).
Arguments Ok {A} a.
Arguments Err {A} e.

(** [type Bm25Base struct] (the logger omitted). *)
Record Bm25Base := mkBase {
  corpus     : list (list string);
  corpusSize : nat;
  avgDocLen  : R;
  docLengths : list nat;
  termFreqs  : gmap string nat;
  idfCache   : gmap string R;
  tokenizer  : string -> list string
}.

(** The inner loop of [NewBM25Base] over the tokens of one document:
    [seenTokens] makes each term count once per document. *)
Fixpoint count_tokens (seenTokens : gset string) (termFreqs : gmap string nat)
    (tokens : list string) : gmap string nat :=
  match tokens with
  | [] => termFreqs
  | token :: rest =>
      if decide (token ∈ seenTokens) then count_tokens seenTokens termFreqs rest
      else count_tokens ({[token]} ∪ seenTokens)
             (<[token := (default 0 (termFreqs !! token) + 1)%nat]> termFreqs) rest
  end.

(** The loop state of [NewBM25Base]: [base.corpus], [base.docLengths],
    [totalDocLen] and [base.termFreqs]. *)
Record build_state := mkBuild {
  bs_corpus : list (list string);
  bs_docLengths : list nat;
  bs_total : nat;
  bs_termFreqs : gmap string nat
}.

(** [for i, doc := range corpus { ... }], [i] being the index of [doc]. *)
Fixpoint build_loop (tok : string -> list string) (i : nat) (docs : list string)
    (st : build_state) : result build_state :=
  match docs with
  | [] => Ok st
  | doc :: rest =>
      let tokens := tok doc in
      if Nat.eqb (length tokens) 0 then Err (ErrEmptyTokenization i)
      else build_loop tok (S i) rest
             (mkBuild (<[i := tokens]> (bs_corpus st))
                      (bs_docLengths st ++ [length tokens])
                      (bs_total st + length tokens)%nat
                      (count_tokens ∅ (bs_termFreqs st) tokens))
  end.

(** [NewBM25Base(corpus, tokenizer, logger)]; a nil tokenizer is [None]. *)
Definition NewBM25Base (docs : list string) (tok : option (string -> list string))
    : result Bm25Base :=
  if Nat.eqb (length docs) 0 then Err ErrEmptyCorpus else
  match tok with
  | None => Err ErrNilTokenizer
  | Some t =>
      match build_loop t 0 docs (mkBuild (replicate (length docs) []) [] 0 ∅) with
      | Err e => Err e
      | Ok st =>
          let n := length docs in
          Ok (mkBase (bs_corpus st) n (INR (bs_total st) / INR n)
                     (bs_docLengths st) (bs_termFreqs st) ∅ t)
      end
  end.

Definition CorpusSize (b : Bm25Base) : nat := corpusSize b.
Definition AvgDocLen (b : Bm25Base) : R := avgDocLen b.
Definition DocLengths (b : Bm25Base) : list nat := docLengths b.

(** [b.idfCache[term] = idf]. *)
Definition set_cache (b : Bm25Base) (term : string) (v : R) : Bm25Base :=
  mkBase (corpus b) (corpusSize b) (avgDocLen b) (docLengths b) (termFreqs b)
         (<[term := v]> (idfCache b)) (tokenizer b).

(** [func (b *Bm25Base) IDF(term string) (float64, error)]: the result and
    the receiver after the call. *)
Definition IDF (b : Bm25Base) (term : string) : result R * Bm25Base :=
  if String.eqb term "" then (Err ErrEmptyTerm, b) else
  match idfCache b !! term with
  | Some idf => (Ok idf, b)
  | None =>
      match termFreqs b !! term with
      | None => (Ok 0, set_cache b term 0)
      | Some termFreq =>
          if Nat.eqb termFreq 0 then (Ok 0, set_cache b term 0)
          else if Nat.eqb termFreq (corpusSize b) then
            let idf := ln (0.5 / (INR termFreq + 0.5)) in
            (Ok idf, set_cache b term idf)
          else
            let idf := ln (((INR (corpusSize b) - INR termFreq + 0.5) /
                            (INR termFreq + 0.5)) + 1.0) in
            (Ok idf, set_cache b term idf)
      end
  end.

(** The base scoring methods: each returns [errors.New("not implemented")]. *)
Definition GetScores (b : Bm25Base) (query : list string) : result (list R) :=
  Err ErrNotImplemented.
Definition GetBatchScores (b : Bm25Base) (query : list string) (docIDs : list Z)
    : result (list R) :=
  Err ErrNotImplemented.
Definition GetTopN (b : Bm25Base) (query : list string) (n : Z) : result (list string) :=
  Err ErrNotImplemented.

(** A whitespace tokenizer, [strings.Split(s, " ")] as in the tests. *)
Fixpoint split_space_aux (acc : string) (s : string) : list string :=
  match s with
  | EmptyString => [acc]
  | String c rest =>
      if Ascii.eqb c " "%char then acc :: split_space_aux "" rest
      else split_space_aux (acc +:+ String c EmptyString) rest
  end.
Definition split_space (s : string) : list string := split_space_aux "" s.

Definition test_corpus : list string := ["hello world"; "this is a test"].

(** The receiver the tests build, and a corpus where one term is in every
    document. *)
Definition two_docs_base : Bm25Base :=
  match NewBM25Base test_corpus (Some split_space) with
  | Ok b => b
  | Err _ => mkBase [] 0 0 [] ∅ ∅ split_space
  end.

Definition shared_corpus : list string := ["hello world"; "hello there"].

Definition shared_base : Bm25Base :=
  match NewBM25Base shared_corpus (Some split_space) with
  | Ok b => b
  | Err _ => two_docs_base
  end.


(** ** Corpus statistics *)

(** Number of documents containing [t] at least once. *)
Definition doc_freq (docs : list (list string)) (t : string) : nat :=
  length (filter (λ d, t ∈ d) docs).

(** A map entry after [c] more documents have counted the term. *)
Definition bump (o : option nat) (c : nat) : option nat :=
  match c with
  | O => o
  | S _ => Some (default 0 o + c)%nat
  end.

(** The IDF a cache miss computes for [term] (the branches of [IDF] after
    the cache lookup). *)
Definition idf_value (b : Bm25Base) (term : string) : R :=
  match termFreqs b !! term with
  | None => 0
  | Some termFreq =>
      if Nat.eqb termFreq 0 then 0
      else if Nat.eqb termFreq (corpusSize b) then ln (0.5 / (INR termFreq + 0.5))
      else ln (((INR (corpusSize b) - INR termFreq + 0.5) / (INR termFreq + 0.5)) + 1.0)
  end.

(** The receivers a program can hold: built by [NewBM25Base], then used by
    [IDF] calls (the scoring methods of the base change no field). *)
Inductive reachable : Bm25Base -> Prop :=
| reachable_new (docs : list string) (tok : option (string -> list string)) (b : Bm25Base) :
    NewBM25Base docs tok = Ok b -> reachable b
| reachable_idf (b : Bm25Base) (term : string) :
    reachable b -> reachable (snd (IDF b term)).

(** The invariant of reachable receivers. *)
Definition base_inv (b : Bm25Base) : Prop :=
  corpusSize b = length (corpus b) ∧
  (0 < corpusSize b)%nat ∧
  (∀ t, termFreqs b !! t = bump None (doc_freq (corpus b) t)) ∧
  (∀ t v, idfCache b !! t = Some v → v = idf_value b t).

(** A caller asking for the IDF of several terms in turn on one receiver. *)
Fixpoint idf_calls (b : Bm25Base) (terms : list string) : Bm25Base :=
  match terms with
  | [] => b
  | t :: ts => idf_calls (snd (IDF b t)) ts
  end.

(** The fields of [Bm25Base] other than [idfCache] agree. *)
Definition same_stats (b1 b2 : Bm25Base) : Prop :=
  corpus b1 = corpus b2 ∧ corpusSize b1 = corpusSize b2 ∧
  avgDocLen b1 = avgDocLen b2 ∧ docLengths b1 = docLengths b2 ∧
  termFreqs b1 = termFreqs b2 ∧ tokenizer b1 = tokenizer b2.

(** ** The BM25L scorer *)

(** Modelled from the spec: the BM25L variant scorer, [NewBM25L] and its
    methods [GetScores], [GetBatchScores] and [GetTopN]. The tests in
    src/bm25/tests/bm25l_test.go call it, but its code is not in src/. Each
    definition of this module follows the words of the spec (sections 3, 4.3,
    4.4, 7 and 8) and uses the base index of bm25.go for its statistics and
    its IDF. *)
Module BM25L.

(** Modelled from the spec: the error conditions of the scorers (section 7):
    those of the base, and the parameter and query errors. *)
Inductive scorer_error :=
| ErrBase (e : error)
| ErrInvalidK1
| ErrInvalidB
| ErrEmptyQuery
| ErrEmptyDocumentIDs
| ErrInvalidDocumentID (id : Z)
| ErrInvalidN.

Inductive sresult (A : Type) :=
| SOk (a : A)
| SErr (e : scorer_error).
Arguments SOk {A} a.
Arguments SErr {A} e.

(** Modelled from the spec: a scorer keeps the raw documents (returned by
    [GetTopN]), the base index and its parameters [k1] and [b]. *)
Record scorer := mkScorer {
  docs : list string;
  base : Bm25Base;
  k1   : R;
  b    : R
}.

Definition set_base (s : scorer) (bs : Bm25Base) : scorer :=
  mkScorer (docs s) bs (k1 s) (b s).

(** Modelled from the spec: construction validates [k1 >= 0] ([InvalidK1])
    and [0 <= b <= 1] ([InvalidB]) and builds the base index. *)
Definition NewBM25L (corpus : list string) (tokenizer : option (string -> list string))
    (k1 b : R) : sresult scorer :=
  if Rlt_dec k1 0 then SErr ErrInvalidK1
  else if Rlt_dec b 0 then SErr ErrInvalidB
  else if Rlt_dec 1 b then SErr ErrInvalidB
  else match NewBM25Base corpus tokenizer with
       | Err e => SErr (ErrBase e)
       | Ok bs => SOk (mkScorer corpus bs k1 b)
       end.

(** Modelled from the spec: [f(t,d)], the number of occurrences of [t]
    among the tokens of [d]. *)
Definition tf (t : string) (d : list string) : nat :=
  length (filter (λ x, x = t) d).

(** Modelled from the spec (table of section 4.4): the BM25L contribution
    [idf(t) * ((k1+1)*c(t,d)) / (k1 + c(t,d))] with
    [c(t,d) = f(t,d) / (1 - b + b*|d|/avgdl)]. *)
Definition contribution (s : scorer) (idf : R) (t : string) (d : list string) : R :=
  let c := INR (tf t d) / (1 - b s + b s * INR (length d) / avgDocLen (base s)) in
  idf * ((k1 s + 1) * c) / (k1 s + c).

(** Modelled from the spec: the IDF a query term is scored with. A term the
    IDF refuses (the empty term) contributes nothing, as GetScores fails on
    no non-empty query (sections 4.3 and 8). *)
Definition idf_or_zero (r : result R) : R :=
  match r with
  | Ok v => v
  | Err _ => 0
  end.

(** Modelled from the spec: for each query term in turn, ask the base for
    its IDF (which fills the cache) and add the term's contribution to the
    score of every document of [ds]. *)
Fixpoint score_loop (s : scorer) (query : list string) (ds : list (list string))
    (acc : list R) : list R * scorer :=
  match query with
  | [] => (acc, s)
  | t :: rest =>
      let r := IDF (base s) t in
      score_loop (set_base s (snd r)) rest ds
        (zip_with Rplus acc (map (contribution s (idf_or_zero (fst r)) t) ds))
  end.

(** Modelled from the spec: [GetScores(query)]. *)
Definition GetScores (s : scorer) (query : list string) : sresult (list R) * scorer :=
  match query with
  | [] => (SErr ErrEmptyQuery, s)
  | _ :: _ =>
      let r := score_loop s query (corpus (base s)) (replicate (corpusSize (base s)) 0) in
      (SOk (fst r), snd r)
  end.

(** The first document ID out of [0, n), if any. *)
Fixpoint first_invalid (n : nat) (ids : list Z) : option Z :=
  match ids with
  | [] => None
  | id :: rest =>
      if orb (Z.ltb id 0) (Z.leb (Z.of_nat n) id) then Some id else first_invalid n rest
  end.

(** Modelled from the spec: [GetBatchScores(query, docIDs)]. *)
Definition GetBatchScores (s : scorer) (query : list string) (docIDs : list Z)
    : sresult (list R) * scorer :=
  match query with
  | [] => (SErr ErrEmptyQuery, s)
  | _ :: _ =>
      match docIDs with
      | [] => (SErr ErrEmptyDocumentIDs, s)
      | _ :: _ =>
          match first_invalid (corpusSize (base s)) docIDs with
          | Some id => (SErr (ErrInvalidDocumentID id), s)
          | None =>
              let ds := map (λ id, default [] (corpus (base s) !! Z.to_nat id)) docIDs in
              let r := score_loop s query ds (replicate (length docIDs) 0) in
              (SOk (fst r), snd r)
          end
      end
  end.

(** The score of document [i]. *)
Definition score_at (scores : list R) (i : nat) : R := default 0 (scores !! i).

(** Modelled from the spec: document [i] ranks before document [j] when its
    score is higher, or equal with a smaller ID. *)
Definition before_b (scores : list R) (i j : nat) : bool :=
  if Rlt_dec (score_at scores j) (score_at scores i) then true
  else if Rlt_dec (score_at scores i) (score_at scores j) then false
  else Nat.ltb i j.

Fixpoint insert_ranked (scores : list R) (i : nat) (l : list nat) : list nat :=
  match l with
  | [] => [i]
  | j :: l' => if before_b scores i j then i :: j :: l' else j :: insert_ranked scores i l'
  end.

(** Modelled from the spec: the document IDs sorted by descending score,
    ties by ascending ID. *)
Definition rank (scores : list R) : list nat :=
  fold_right (insert_ranked scores) [] (seq 0 (length scores)).

(** Modelled from the spec: [GetTopN(query, n)]. *)
Definition GetTopN (s : scorer) (query : list string) (n : Z)
    : sresult (list string) * scorer :=
  match query with
  | [] => (SErr ErrEmptyQuery, s)
  | _ :: _ =>
      if Z.leb n 0 then (SErr ErrInvalidN, s)
      else match GetScores s query with
           | (SErr e, s') => (SErr e, s')
           | (SOk scores, s') =>
               (SOk (map (λ i, default "" (docs s !! i)) (take (Z.to_nat n) (rank scores))), s')
           end
  end.

(** Modelled from the spec: the contribution of query term [t] to document
    [d], scored with the IDF the base reports for [t]. *)
Definition term_score (s : scorer) (t : string) (d : list string) : R :=
  contribution s (idf_or_zero (fst (IDF (base s) t))) t d.

(** Modelled from the spec: the sum over the query terms of their
    contributions to [d]. *)
Definition doc_score (s : scorer) (query : list string) (d : list string) : R :=
  foldr (λ t acc, term_score s t d + acc) 0 query.

(** Document [i] ranks strictly before document [j]. *)
Definition before (scores : list R) (i j : nat) : Prop :=
  score_at scores j < score_at scores i ∨
  (score_at scores i = score_at scores j ∧ (i < j)%nat).

(** The scorers a program can hold: built by [NewBM25L], then used by its
    methods and by [IDF] calls on its base. *)
Inductive reachable_scorer : scorer -> Prop :=
| rs_new (corpus : list string) (tok : option (string -> list string)) (k1 b : R) (s : scorer) :
    NewBM25L corpus tok k1 b = SOk s -> reachable_scorer s
| rs_scores (s : scorer) (q : list string) :
    reachable_scorer s -> reachable_scorer (snd (GetScores s q))
| rs_batch (s : scorer) (q : list string) (ids : list Z) :
    reachable_scorer s -> reachable_scorer (snd (GetBatchScores s q ids))
| rs_topn (s : scorer) (q : list string) (n : Z) :
    reachable_scorer s -> reachable_scorer (snd (GetTopN s q n))
| rs_idf (s : scorer) (t : string) :
    reachable_scorer s -> reachable_scorer (set_base s (snd (IDF (base s) t))).

(** The scorer of the tests: the test corpus, [k1 = 1.2], [b = 0.75]. *)
Definition test_scorer : scorer := mkScorer test_corpus two_docs_base 1.2 0.75.

End BM25L.

(** * Properties *)

Example split_space_ex : split_space "this is a test" = ["this"; "is"; "a"; "test"].
Proof. reflexivity. Qed.

Example new_ex :
  match NewBM25Base test_corpus (Some split_space) with
  | Ok b => corpusSize b = 2%nat /\ docLengths b = [2; 4]%nat /\
            termFreqs b !! "hello" = Some 1%nat /\ termFreqs b !! "foo" = None
  | Err _ => False
  end.
Proof. vm_compute. repeat split; reflexivity. Qed.



Lemma count_tokens_lookup (seen : gset string) (tf : gmap string nat)
    (toks : list string) (t : string) :
  count_tokens seen tf toks !! t =
  if decide (t ∈ toks ∧ t ∉ seen) then Some (default 0 (tf !! t) + 1)%nat
  else tf !! t.
Proof.
  revert seen tf. induction toks as [|a toks IH]; intros seen tf; cbn [count_tokens].
  - case_decide as Hd; [destruct Hd as [Hd _]; set_solver | done].
  - destruct (decide (a ∈ seen)) as [Ha|Ha].
    + rewrite IH. repeat case_decide; set_solver.
    + rewrite IH. destruct (decide (t = a)) as [->|Hne].
      * rewrite lookup_insert_eq.
        repeat case_decide; set_solver.
      * rewrite lookup_insert_ne by congruence.
        repeat case_decide; set_solver.
Qed.

Lemma count_tokens_empty (tf : gmap string nat) (toks : list string) (t : string) :
  count_tokens ∅ tf toks !! t = bump (tf !! t) (if decide (t ∈ toks) then 1%nat else 0%nat).
Proof.
  rewrite count_tokens_lookup. repeat case_decide; set_solver.
Qed.

Lemma doc_freq_cons (d : list string) (docs : list (list string)) (t : string) :
  doc_freq (d :: docs) t = ((if decide (t ∈ d) then 1 else 0) + doc_freq docs t)%nat.
Proof. unfold doc_freq. rewrite filter_cons. case_decide; reflexivity. Qed.

Lemma doc_freq_le (docs : list (list string)) (t : string) :
  (doc_freq docs t ≤ length docs)%nat.
Proof. unfold doc_freq. apply length_filter. Qed.

Lemma bump_bump (o : option nat) (c1 c2 : nat) :
  bump (bump o c1) c2 = bump o (c1 + c2).
Proof.
  destruct c1 as [|c1], c2 as [|c2]; simpl; rewrite ?Nat.add_0_r; try done.
  f_equal. lia.
Qed.

Lemma insert_replicate_prefix (pre : list (list string)) (x : list string) (k : nat) :
  <[length pre := x]> (pre ++ [] :: replicate k []) = (pre ++ [x]) ++ replicate k [].
Proof.
  rewrite insert_app_r_alt by lia. rewrite Nat.sub_diag.
  simpl. rewrite <- app_assoc. reflexivity.
Qed.

Lemma build_loop_ok (tok : string -> list string) (pre docs : list string)
    (dl : list nat) (total : nat) (tf : gmap string nat) :
  (∀ d, d ∈ docs → tok d ≠ []) →
  ∃ tf', build_loop tok (length pre) docs
           (mkBuild (map tok pre ++ replicate (length docs) []) dl total tf) =
         Ok (mkBuild (map tok (pre ++ docs))
                     (dl ++ map (λ d, length (tok d)) docs)
                     (total + sum_list (map (λ d, length (tok d)) docs))%nat tf')
       ∧ ∀ t, tf' !! t = bump (tf !! t) (doc_freq (map tok docs) t).
Proof.
  revert pre dl total tf. induction docs as [|d docs IH]; intros pre dl total tf Hne.
  - exists tf. simpl. rewrite !app_nil_r, Nat.add_0_r. split; [done|]. intros t. done.
  - simpl. assert (Hd : tok d ≠ []) by (apply Hne; set_solver).
    destruct (Nat.eqb_spec (length (tok d)) 0) as [Hl|Hl].
    { destruct (tok d); simpl in Hl; congruence. }
    rewrite <- length_map with (f := tok) (l := pre).
    rewrite insert_replicate_prefix.
    assert (Hpre : S (length (map tok pre)) = length (pre ++ [d])).
    { rewrite length_app, length_map. simpl. lia. }
    rewrite Hpre.
    replace (map tok pre ++ [tok d]) with (map tok (pre ++ [d])) by (rewrite map_app; done).
    destruct (IH (pre ++ [d]) (dl ++ [length (tok d)]) (total + length (tok d))%nat
                 (count_tokens ∅ tf (tok d))) as [tf' [Heq Htf]].
    { intros d' Hd'. apply Hne. set_solver. }
    exists tf'. rewrite Heq. split.
    + rewrite <- !app_assoc. simpl. rewrite Nat.add_assoc. done.
    + intros t. rewrite Htf, count_tokens_empty, bump_bump, doc_freq_cons. done.
Qed.

Lemma build_loop_first_empty (tok : string -> list string) (i : nat)
    (docs : list string) (st : build_state) :
  (∃ d, d ∈ docs ∧ tok d = []) →
  ∃ j d, build_loop tok i docs st = Err (ErrEmptyTokenization (i + j)) ∧
         docs !! j = Some d ∧ tok d = [] ∧
         ∀ j' d', (j' < j)%nat → docs !! j' = Some d' → tok d' ≠ [].
Proof.
  revert i st. induction docs as [|d docs IH]; intros i st [d0 [Hin Hempty]].
  - set_solver.
  - destruct (decide (tok d = [])) as [He|He].
    + exists 0%nat, d. simpl. rewrite He. simpl. rewrite Nat.add_0_r.
      repeat split; try done. intros j' d' Hj'. lia.
    + assert (Hin' : d0 ∈ docs).
      { apply elem_of_cons in Hin as [->|Hin]; [congruence|done]. }
      destruct (IH (S i) (mkBuild (<[i := tok d]> (bs_corpus st))
                                  (bs_docLengths st ++ [length (tok d)])
                                  (bs_total st + length (tok d))%nat
                                  (count_tokens ∅ (bs_termFreqs st) (tok d))))
        as [j [d' [Heq [Hl [Hd' Hfirst]]]]]; [eauto|].
      exists (S j), d'. simpl.
      destruct (Nat.eqb_spec (length (tok d)) 0) as [Hl0|Hl0].
      { destruct (tok d); simpl in Hl0; congruence. }
      rewrite Heq, Nat.add_succ_r. repeat split; try done.
      intros [|j''] d'' Hj Hl''; simpl in Hl''.
      * congruence.
      * apply (Hfirst j''); [lia|done].
Qed.

Lemma NewBM25Base_ok (docs : list string) (tok : string -> list string) :
  docs ≠ [] → (∀ d, d ∈ docs → tok d ≠ []) →
  ∃ tf, NewBM25Base docs (Some tok) =
        Ok (mkBase (map tok docs) (length docs)
              (INR (sum_list (map (λ d, length (tok d)) docs)) / INR (length docs))
              (map (λ d, length (tok d)) docs) tf ∅ tok)
      ∧ ∀ t, tf !! t = bump None (doc_freq (map tok docs) t).
Proof.
  intros Hne Htok. unfold NewBM25Base.
  destruct (Nat.eqb_spec (length docs) 0) as [H0|H0].
  { destruct docs; simpl in H0; congruence. }
  destruct (build_loop_ok tok [] docs [] 0 ∅ Htok) as [tf [Heq Htf]].
  simpl in Heq. rewrite Heq. exists tf. split; [done|].
  intros t. rewrite Htf. done.
Qed.

Lemma bump_None (c : nat) : bump None c = if decide (c = 0%nat) then None else Some c.
Proof. destruct c; reflexivity. Qed.

Lemma NewBM25Base_Ok_inv (docs : list string) (tok : option (string -> list string))
    (b : Bm25Base) :
  NewBM25Base docs tok = Ok b →
  ∃ t, tok = Some t ∧ docs ≠ [] ∧ (∀ d, d ∈ docs → t d ≠ []) ∧
       ∃ tf, b = mkBase (map t docs) (length docs)
              (INR (sum_list (map (λ d, length (t d)) docs)) / INR (length docs))
              (map (λ d, length (t d)) docs) tf ∅ t
           ∧ ∀ x, tf !! x = bump None (doc_freq (map t docs) x).
Proof.
  intros Hb. destruct tok as [t|]; [|unfold NewBM25Base in Hb; destruct (length docs =? 0)%nat; discriminate].
  assert (Hne : docs ≠ []).
  { intros ->. discriminate. }
  assert (Htok : ∀ d, d ∈ docs → t d ≠ []).
  { intros d Hd He.
    destruct (build_loop_first_empty t 0 docs
                (mkBuild (replicate (length docs) []) [] 0 ∅)) as [j [d' [Heq _]]];
      [eauto|].
    unfold NewBM25Base in Hb. rewrite Heq in Hb.
    destruct (Nat.eqb_spec (length docs) 0); discriminate. }
  destruct (NewBM25Base_ok docs t Hne Htok) as [tf [Heq Htf]].
  rewrite Heq in Hb. injection Hb as <-.
  exists t. repeat split; eauto.
Qed.

Lemma NewBM25Base_base_inv (docs : list string) (tok : option (string -> list string))
    (b : Bm25Base) :
  NewBM25Base docs tok = Ok b → base_inv b.
Proof.
  intros Hb. apply NewBM25Base_Ok_inv in Hb as [t [_ [Hne [_ [tf [-> Htf]]]]]].
  unfold base_inv; simpl. rewrite length_map. repeat split.
  - destruct docs; [congruence|simpl; lia].
  - exact Htf.
  - intros x v Hv. rewrite lookup_empty in Hv. discriminate.
Qed.

(** ** Construction *)

(** C7: [NewBM25Base] checks, in this order, for an empty corpus
    ([EmptyCorpus]), a nil tokenizer ([NilTokenizer]) and a document that
    tokenizes to no token ([EmptyTokenization], naming the index of the
    first such document); when none of these holds it succeeds. *)
Theorem NewBM25Base_errors :
  (∀ tok, NewBM25Base [] tok = Err ErrEmptyCorpus) ∧
  (∀ docs, docs ≠ [] → NewBM25Base docs None = Err ErrNilTokenizer) ∧
  (∀ docs (tok : string -> list string), docs ≠ [] → (∃ d, d ∈ docs ∧ tok d = []) →
     ∃ i d, NewBM25Base docs (Some tok) = Err (ErrEmptyTokenization i) ∧
            docs !! i = Some d ∧ tok d = [] ∧
            ∀ j d', (j < i)%nat → docs !! j = Some d' → tok d' ≠ []) ∧
  (∀ docs (tok : string -> list string), docs ≠ [] → (∀ d, d ∈ docs → tok d ≠ []) →
     ∃ b, NewBM25Base docs (Some tok) = Ok b).
Proof.
  split; [done|]. split.
  { intros docs Hne. unfold NewBM25Base.
    destruct (Nat.eqb_spec (length docs) 0) as [H0|H0]; [|done].
    destruct docs; simpl in H0; congruence. }
  split.
  - intros docs tok Hne Hex.
    destruct (build_loop_first_empty tok 0 docs
                (mkBuild (replicate (length docs) []) [] 0 ∅) Hex)
      as [j [d [Heq [Hl [Hd Hfirst]]]]].
    exists j, d. unfold NewBM25Base. rewrite Heq.
    destruct (Nat.eqb_spec (length docs) 0) as [H0|H0].
    { destruct docs; simpl in H0; congruence. }
    eauto.
  - intros docs tok Hne Htok.
    destruct (NewBM25Base_ok docs tok Hne Htok) as [tf [Heq _]]. eauto.
Qed.

(** C8: after [NewBM25Base] succeeds on [docs], [CorpusSize] is the number
    of documents, [DocLengths] lists the token counts in document order,
    [AvgDocLen] is their sum divided by [CorpusSize] over the reals, and
    [termFreqs] maps each term to the number of distinct documents that
    contain it (absent when there is none), which is at most [CorpusSize]. *)
Theorem NewBM25Base_statistics (docs : list string) (tok : string -> list string)
    (b : Bm25Base) :
  NewBM25Base docs (Some tok) = Ok b →
  CorpusSize b = length docs ∧
  corpus b = map tok docs ∧
  DocLengths b = map (λ d, length (tok d)) docs ∧
  (∀ i d, docs !! i = Some d → DocLengths b !! i = Some (length (tok d))) ∧
  AvgDocLen b = INR (sum_list (DocLengths b)) / INR (CorpusSize b) ∧
  (∀ t, termFreqs b !! t =
        if decide (doc_freq (corpus b) t = 0%nat) then None
        else Some (doc_freq (corpus b) t)) ∧
  (∀ t k, termFreqs b !! t = Some k → (k ≤ CorpusSize b)%nat).
Proof.
  intros Hb. apply NewBM25Base_Ok_inv in Hb as [t [Ht [Hne [_ [tf [-> Htf]]]]]].
  injection Ht as <-.
  unfold CorpusSize, DocLengths, AvgDocLen; simpl. repeat split.
  - intros i d Hd. rewrite list_lookup_fmap, Hd. done.
  - intros x. rewrite Htf, bump_None. done.
  - intros x k Hk. rewrite Htf, bump_None in Hk. case_decide; [done|].
    injection Hk as <-. rewrite <- (length_map tok docs). apply doc_freq_le.
Qed.

Lemma NewBM25Base_statistics_witness :
  NewBM25Base test_corpus (Some split_space) = Ok two_docs_base ∧
  CorpusSize two_docs_base = length test_corpus ∧
  DocLengths two_docs_base = map (λ d, length (split_space d)) test_corpus.
Proof.
  assert (H : NewBM25Base test_corpus (Some split_space) = Ok two_docs_base)
    by reflexivity.
  destruct (NewBM25Base_statistics _ _ _ H) as [H1 [_ [H2 _]]].
  split; [exact H|split; assumption].
Defined.

(** ** IDF *)

Lemma IDF_cases (b : Bm25Base) (term : string) :
  (term = "" ∧ IDF b term = (Err ErrEmptyTerm, b)) ∨
  (term ≠ "" ∧
   ((∃ v, idfCache b !! term = Some v ∧ IDF b term = (Ok v, b)) ∨
    (idfCache b !! term = None ∧
     IDF b term = (Ok (idf_value b term), set_cache b term (idf_value b term))))).
Proof.
  unfold IDF. destruct (String.eqb_spec term "") as [He|He]; [by left|right].
  split; [done|]. destruct (idfCache b !! term) as [v|] eqn:Hc; [left; eauto|right].
  split; [done|]. unfold idf_value.
  destruct (termFreqs b !! term) as [tf|]; [|done].
  destruct (Nat.eqb tf 0); [done|]. destruct (Nat.eqb tf (corpusSize b)); done.
Qed.

Lemma idf_value_set_cache (b : Bm25Base) (term t : string) (v : R) :
  idf_value (set_cache b term v) t = idf_value b t.
Proof. reflexivity. Qed.

Lemma reachable_base_inv (b : Bm25Base) : reachable b → base_inv b.
Proof.
  induction 1 as [docs tok b Hb|b term _ IH].
  - eapply NewBM25Base_base_inv; eauto.
  - destruct (IDF_cases b term) as [[_ ->]|[_ [[v [_ ->]]|[_ ->]]]]; simpl; try done.
    destruct IH as [Hn [Hpos [Htf Hc]]].
    unfold base_inv; simpl. repeat split; try done.
    intros t v Hv. rewrite idf_value_set_cache.
    destruct (decide (t = term)) as [->|Hne].
    + rewrite lookup_insert_eq in Hv. injection Hv as <-. done.
    + rewrite lookup_insert_ne in Hv by congruence. eauto.
Qed.

Lemma base_inv_termFreqs (b : Bm25Base) (t : string) (k : nat) :
  base_inv b → termFreqs b !! t = Some k → (1 ≤ k ≤ corpusSize b)%nat.
Proof.
  intros [Hn [_ [Htf _]]] Hk. rewrite Htf, bump_None in Hk.
  case_decide as H0; [done|]. injection Hk as <-.
  pose proof (doc_freq_le (corpus b) t). lia.
Qed.

Lemma IDF_value (b : Bm25Base) (term : string) :
  base_inv b → term ≠ "" → fst (IDF b term) = Ok (idf_value b term).
Proof.
  intros Hinv Hne.
  destruct (IDF_cases b term) as [[He _]|[_ [[v [Hc ->]]|[_ ->]]]]; [done| |done].
  destruct Hinv as [_ [_ [_ Hcache]]]. simpl. f_equal. eauto.
Qed.

Lemma ln_neg (x : R) : 0 < x → x < 1 → ln x < 0.
Proof. intros H0 H1. rewrite <- ln_1. apply ln_increasing; lra. Qed.

Lemma ln_pos (x : R) : 1 < x → 0 < ln x.
Proof. intros H1. rewrite <- ln_1. apply ln_increasing; lra. Qed.

Lemma idf_all_docs_neg (df : nat) : (1 ≤ df)%nat → ln (0.5 / (INR df + 0.5)) < 0.
Proof.
  intros Hdf. apply le_INR in Hdf. simpl in Hdf. apply ln_neg.
  - apply Rdiv_lt_0_compat; lra.
  - pose proof (Rinv_0_lt_compat (INR df + 0.5)) as Hi.
    assert (/ (INR df + 0.5) * (INR df + 0.5) = 1) by (apply Rinv_l; lra).
    unfold Rdiv. nra.
Qed.

Lemma idf_standard_pos (n df : nat) :
  (df < n)%nat → 0 < ln (((INR n - INR df + 0.5) / (INR df + 0.5)) + 1.0).
Proof.
  intros Hlt. apply ln_pos.
  assert (Hle : (S df ≤ n)%nat) by lia. apply le_INR in Hle. rewrite S_INR in Hle.
  pose proof (pos_INR df).
  assert (0 < (INR n - INR df + 0.5) / (INR df + 0.5)) by (apply Rdiv_lt_0_compat; lra).
  lra.
Qed.

Lemma IDF_stores (b : Bm25Base) (term : string) (v : R) :
  fst (IDF b term) = Ok v →
  idfCache (snd (IDF b term)) !! term = Some v ∧
  IDF (snd (IDF b term)) term = (Ok v, snd (IDF b term)).
Proof.
  intros Hv.
  destruct (IDF_cases b term) as [[_ Heq]|[Hne [[w [Hc Heq]]|[Hc Heq]]]];
    rewrite Heq in Hv |- *; simpl in Hv |- *; [discriminate| |].
  - injection Hv as <-. split; [done|]. exact Heq.
  - injection Hv as <-. split; [apply lookup_insert_eq|].
    destruct (IDF_cases (set_cache b term (idf_value b term)) term)
      as [[He _]|[_ [[w [Hw Heq']]|[Hc' _]]]]; [done| |].
    + simpl in Hw. rewrite lookup_insert_eq in Hw. injection Hw as <-. exact Heq'.
    + simpl in Hc'. rewrite lookup_insert_eq in Hc'. discriminate.
Qed.

Lemma doc_freq_absent (docs : list (list string)) (t : string) :
  (∀ d, d ∈ docs → t ∉ d) → doc_freq docs t = 0%nat.
Proof.
  induction docs as [|d docs IH]; intros Habs; [done|].
  rewrite doc_freq_cons. case_decide as Hin.
  - exfalso. apply (Habs d); [set_solver|done].
  - simpl. apply IH. intros d' Hd'. apply Habs. set_solver.
Qed.

(** C4: for a non-empty term found in every document ([df = corpusSize]),
    [IDF] returns [ln (0.5 / (df + 0.5))], a formula without [corpusSize],
    which is negative, and the cache holds that value afterwards. *)
Theorem IDF_all_documents (b : Bm25Base) (term : string) (df : nat) :
  reachable b → term ≠ "" → termFreqs b !! term = Some df → df = corpusSize b →
  fst (IDF b term) = Ok (ln (0.5 / (INR df + 0.5))) ∧
  ln (0.5 / (INR df + 0.5)) < 0 ∧
  idfCache (snd (IDF b term)) !! term = Some (ln (0.5 / (INR df + 0.5))).
Proof.
  intros Hr Hne Htf Hdf. apply reachable_base_inv in Hr as Hinv.
  pose proof (base_inv_termFreqs b term df Hinv Htf) as Hk.
  assert (Hval : fst (IDF b term) = Ok (ln (0.5 / (INR df + 0.5)))).
  { rewrite IDF_value by done. unfold idf_value. rewrite Htf.
    destruct (Nat.eqb_spec df 0) as [H0|_]; [lia|].
    destruct (Nat.eqb_spec df (corpusSize b)) as [_|H1]; [done|lia]. }
  split; [exact Hval|]. split.
  - apply idf_all_docs_neg. lia.
  - apply IDF_stores. exact Hval.
Qed.

Lemma IDF_all_documents_witness :
  let b := match NewBM25Base shared_corpus (Some split_space) with
           | Ok b => b | Err _ => two_docs_base end in
  reachable b ∧ "hello" ≠ "" ∧ termFreqs b !! "hello" = Some 2%nat ∧
  2%nat = corpusSize b ∧
  fst (IDF b "hello") = Ok (ln (0.5 / (INR 2 + 0.5))).
Proof.
  intros b.
  assert (Hr : reachable b) by (apply (reachable_new shared_corpus (Some split_space)); reflexivity).
  assert (Hne : "hello" ≠ "") by discriminate.
  assert (Htf : termFreqs b !! "hello" = Some 2%nat) by reflexivity.
  assert (Hn : 2%nat = corpusSize b) by reflexivity.
  destruct (IDF_all_documents b "hello" 2 Hr Hne Htf Hn) as [H _].
  repeat split; assumption.
Defined.

(** C5: for a non-empty term with [0 < df < corpusSize], [IDF] returns
    [ln ((corpusSize - df + 0.5) / (df + 0.5) + 1.0)] without error, and this
    value is strictly positive. *)
Theorem IDF_standard (b : Bm25Base) (term : string) (df : nat) :
  reachable b → term ≠ "" → termFreqs b !! term = Some df →
  (0 < df < corpusSize b)%nat →
  fst (IDF b term) =
    Ok (ln (((INR (corpusSize b) - INR df + 0.5) / (INR df + 0.5)) + 1.0)) ∧
  0 < ln (((INR (corpusSize b) - INR df + 0.5) / (INR df + 0.5)) + 1.0).
Proof.
  intros Hr Hne Htf Hdf. apply reachable_base_inv in Hr as Hinv. split.
  - rewrite IDF_value by done. unfold idf_value. rewrite Htf.
    destruct (Nat.eqb_spec df 0) as [H0|_]; [lia|].
    destruct (Nat.eqb_spec df (corpusSize b)) as [H1|_]; [lia|done].
  - apply idf_standard_pos. lia.
Qed.

Lemma IDF_standard_witness :
  reachable two_docs_base ∧ "hello" ≠ "" ∧
  termFreqs two_docs_base !! "hello" = Some 1%nat ∧
  (0 < 1 < corpusSize two_docs_base)%nat ∧
  0 < ln (((INR (corpusSize two_docs_base) - INR 1 + 0.5) / (INR 1 + 0.5)) + 1.0).
Proof.
  assert (Hr : reachable two_docs_base)
    by (apply (reachable_new test_corpus (Some split_space)); reflexivity).
  assert (Hne : "hello" ≠ "") by discriminate.
  assert (Htf : termFreqs two_docs_base !! "hello" = Some 1%nat) by reflexivity.
  assert (Hdf : (0 < 1 < corpusSize two_docs_base)%nat) by (vm_compute; lia).
  destruct (IDF_standard two_docs_base "hello" 1 Hr Hne Htf Hdf) as [_ H].
  exact (conj Hr (conj Hne (conj Htf (conj Hdf H)))).
Defined.

(** C6: [IDF] fails, and then with [EmptyTerm], exactly when the term is
    the empty string; a non-empty term that occurs in no document of the
    corpus gets IDF [0.0]. *)
Theorem IDF_empty_term (b : Bm25Base) (term : string) :
  reachable b →
  (fst (IDF b term) = Err ErrEmptyTerm ↔ term = "") ∧
  (term ≠ "" → ∃ v, fst (IDF b term) = Ok v) ∧
  (term ≠ "" → (∀ d, d ∈ corpus b → term ∉ d) → fst (IDF b term) = Ok 0).
Proof.
  intros Hr. apply reachable_base_inv in Hr as Hinv. split; [|split].
  - destruct (IDF_cases b term) as [[He Heq]|[Hne [[v [_ Heq]]|[_ Heq]]]];
      rewrite Heq; simpl; split; done || discriminate || congruence.
  - intros Hne. rewrite IDF_value by done. eauto.
  - intros Hne Habs. rewrite IDF_value by done. f_equal.
    unfold idf_value. destruct Hinv as [_ [_ [Htf _]]].
    rewrite Htf, doc_freq_absent by done. done.
Qed.

Lemma IDF_empty_term_witness :
  reachable two_docs_base ∧
  fst (IDF two_docs_base "") = Err ErrEmptyTerm ∧
  fst (IDF two_docs_base "foo") = Ok 0.
Proof.
  assert (Hr : reachable two_docs_base)
    by (apply (reachable_new test_corpus (Some split_space)); reflexivity).
  destruct (IDF_empty_term two_docs_base "" Hr) as [[_ H1] _].
  destruct (IDF_empty_term two_docs_base "foo" Hr) as [_ [_ H2]].
  split; [exact Hr|split; [apply H1; reflexivity|]].
  apply H2; [discriminate|].
  apply Forall_forall.
  assert (Hc : corpus two_docs_base = [["hello";"world"];["this";"is";"a";"test"]])
    by reflexivity.
  rewrite Hc. repeat constructor; rewrite list_elem_of_In; simpl; intuition discriminate.
Defined.

(** C9: [IDF] changes no corpus statistic; the cache either stays as it was
    or gains one entry for a term it did not hold; a returned value is in
    the cache, and calling [IDF] again with the same term returns that
    value and changes nothing. *)
Theorem IDF_frame (b : Bm25Base) (term : string) :
  corpus (snd (IDF b term)) = corpus b ∧
  corpusSize (snd (IDF b term)) = corpusSize b ∧
  avgDocLen (snd (IDF b term)) = avgDocLen b ∧
  docLengths (snd (IDF b term)) = docLengths b ∧
  termFreqs (snd (IDF b term)) = termFreqs b ∧
  tokenizer (snd (IDF b term)) = tokenizer b ∧
  (idfCache (snd (IDF b term)) = idfCache b ∨
   (idfCache b !! term = None ∧
    ∃ v, idfCache (snd (IDF b term)) = <[term := v]> (idfCache b))) ∧
  (∀ v, fst (IDF b term) = Ok v →
     idfCache (snd (IDF b term)) !! term = Some v ∧
     IDF (snd (IDF b term)) term = (Ok v, snd (IDF b term))).
Proof.
  split_and!; [..|intros v Hv; apply IDF_stores; exact Hv];
    destruct (IDF_cases b term) as [[_ ->]|[_ [[v [_ ->]]|[Hc ->]]]]; simpl; eauto.
Qed.

(** C10: in a reachable receiver every count in [termFreqs] lies between 1
    and [corpusSize] (so the [termFreq == 0] branch of [IDF] is never taken),
    and a non-empty term gets IDF [0.0] exactly when it is absent from
    [termFreqs]. *)
Theorem termFreqs_bounds_zero_idf (b : Bm25Base) :
  reachable b →
  (∀ t k, termFreqs b !! t = Some k → (1 ≤ k ≤ corpusSize b)%nat) ∧
  (∀ t, t ≠ "" → (fst (IDF b t) = Ok 0 ↔ termFreqs b !! t = None)).
Proof.
  intros Hr. apply reachable_base_inv in Hr as Hinv. split.
  - intros t k. apply base_inv_termFreqs. exact Hinv.
  - intros t Hne. rewrite IDF_value by done. unfold idf_value.
    destruct (termFreqs b !! t) as [k|] eqn:Hk; [|done].
    pose proof (base_inv_termFreqs b t k Hinv Hk) as Hbd.
    split; [|discriminate]. intros Hz. injection Hz as Hz. exfalso.
    destruct (Nat.eqb_spec k 0) as [H0|_]; [lia|].
    destruct (Nat.eqb_spec k (corpusSize b)) as [H1|H1].
    + pose proof (idf_all_docs_neg k ltac:(lia)). lra.
    + pose proof (idf_standard_pos (corpusSize b) k ltac:(lia)). lra.
Qed.

Lemma termFreqs_bounds_zero_idf_witness :
  reachable two_docs_base ∧
  (fst (IDF two_docs_base "foo") = Ok 0 ↔ termFreqs two_docs_base !! "foo" = None).
Proof.
  assert (Hr : reachable two_docs_base)
    by (apply (reachable_new test_corpus (Some split_space)); reflexivity).
  destruct (termFreqs_bounds_zero_idf two_docs_base Hr) as [_ H].
  split; [exact Hr|]. apply H. discriminate.
Defined.

(** ** Further properties of the code *)

Lemma IDF_same_stats (b : Bm25Base) (term : string) :
  same_stats (snd (IDF b term)) b.
Proof.
  destruct (IDF_cases b term) as [[_ ->]|[_ [[v [_ ->]]|[_ ->]]]];
    unfold same_stats; simpl; auto 10.
Qed.

Lemma same_stats_trans (b1 b2 b3 : Bm25Base) :
  same_stats b1 b2 → same_stats b2 b3 → same_stats b1 b3.
Proof. unfold same_stats. intuition congruence. Qed.

Lemma idf_calls_same_stats (b : Bm25Base) (ts : list string) :
  same_stats (idf_calls b ts) b.
Proof.
  revert b. induction ts as [|t ts IH]; intros b; simpl.
  - unfold same_stats. auto 10.
  - eapply same_stats_trans; [apply IH|apply IDF_same_stats].
Qed.

Lemma reachable_idf_calls (b : Bm25Base) (ts : list string) :
  reachable b → reachable (idf_calls b ts).
Proof.
  revert b. induction ts as [|t ts IH]; intros b Hr; simpl; [done|].
  apply IH. constructor. exact Hr.
Qed.

Lemma idf_value_same_stats (b1 b2 : Bm25Base) (t : string) :
  same_stats b1 b2 → idf_value b1 t = idf_value b2 t.
Proof.
  intros (_ & Hn & _ & _ & Htf & _). unfold idf_value. rewrite Htf, Hn. done.
Qed.

Lemma reachable_origin (b : Bm25Base) :
  reachable b → ∃ docs tok b0, NewBM25Base docs tok = Ok b0 ∧ same_stats b b0.
Proof.
  induction 1 as [docs tok b Hb|b term _ (docs & tok & b0 & Hb0 & Hs)].
  - exists docs, tok, b. split; [done|]. unfold same_stats. auto 10.
  - exists docs, tok, b0. split; [done|].
    eapply same_stats_trans; [apply IDF_same_stats|exact Hs].
Qed.

(** X1: the cache is invisible to callers: after any sequence of [IDF]
    calls, [IDF] answers for a term exactly what it answered before them. *)
Theorem IDF_history_independent (b : Bm25Base) (ts : list string) (t : string) :
  reachable b → fst (IDF (idf_calls b ts) t) = fst (IDF b t).
Proof.
  intros Hr.
  destruct (String.eqb_spec t "") as [->|Hne].
  - destruct (IDF_cases (idf_calls b ts) "") as [[_ ->]|[? _]]; [|done].
    destruct (IDF_cases b "") as [[_ ->]|[? _]]; done.
  - rewrite !IDF_value by (done || apply reachable_base_inv;
                           try apply reachable_idf_calls; done).
    f_equal. apply idf_value_same_stats, idf_calls_same_stats.
Qed.

Lemma IDF_history_independent_witness :
  reachable two_docs_base ∧
  fst (IDF (idf_calls two_docs_base ["hello"; "foo"; "test"]) "hello") =
  fst (IDF two_docs_base "hello").
Proof.
  assert (Hr : reachable two_docs_base)
    by (apply (reachable_new test_corpus (Some split_space)); reflexivity).
  split; [exact Hr|]. apply IDF_history_independent. exact Hr.
Defined.

(** X2: after a sequence of [IDF] calls the cache holds an entry for a term
    exactly when it held one before or the term is a non-empty term of the
    sequence; no entry is ever removed. *)
Theorem idf_calls_cache_domain (b : Bm25Base) (ts : list string) (t : string) :
  is_Some (idfCache (idf_calls b ts) !! t) ↔
  is_Some (idfCache b !! t) ∨ (t ∈ ts ∧ t ≠ "").
Proof.
  revert b. induction ts as [|a ts IH]; intros b; simpl.
  - split; [auto|]. intros [H|[H _]]; [done|set_solver].
  - rewrite IH.
    assert (Hstep : is_Some (idfCache (snd (IDF b a)) !! t) ↔
                    is_Some (idfCache b !! t) ∨ (t = a ∧ a ≠ "")).
    { destruct (IDF_cases b a) as [[Ha ->]|[Ha [[v [Hc ->]]|[Hc ->]]]]; simpl.
      - split; [auto|]. intros [H|[_ H]]; [done|congruence].
      - split; [auto|]. intros [H|[-> _]]; [done|]. rewrite Hc. eauto.
      - destruct (decide (t = a)) as [->|Hta].
        + rewrite lookup_insert_eq. split; [eauto|]. intros _. eauto.
        + rewrite lookup_insert_ne by congruence. split; [auto|].
          intros [H|[H _]]; [done|congruence]. }
    rewrite Hstep. rewrite elem_of_cons. naive_solver.
Qed.

(** X3: no receiver of the program ever caches the empty term. *)
Theorem reachable_no_empty_term_cached (b : Bm25Base) :
  reachable b → idfCache b !! "" = None.
Proof.
  induction 1 as [docs tok b Hb|b term _ IH].
  - apply NewBM25Base_Ok_inv in Hb as (t & _ & _ & _ & tf & -> & _). done.
  - destruct (IDF_cases b term) as [[_ ->]|[Hne [[v [_ ->]]|[_ ->]]]]; simpl; try done.
    rewrite lookup_insert_ne by congruence. exact IH.
Qed.

Lemma reachable_no_empty_term_cached_witness :
  reachable (idf_calls two_docs_base [""; "hello"]) ∧
  idfCache (idf_calls two_docs_base [""; "hello"]) !! "" = None.
Proof.
  assert (Hr : reachable (idf_calls two_docs_base [""; "hello"])).
  { apply reachable_idf_calls.
    apply (reachable_new test_corpus (Some split_space)); reflexivity. }
  split; [exact Hr|]. apply reachable_no_empty_term_cached. exact Hr.
Defined.

Lemma doc_freq_pos (docs : list (list string)) (t : string) :
  doc_freq docs t ≠ 0%nat ↔ ∃ d, d ∈ docs ∧ t ∈ d.
Proof.
  induction docs as [|d docs IH]; [unfold doc_freq; simpl; set_solver|].
  rewrite doc_freq_cons. case_decide as Hin.
  - split; [intros _; exists d; set_solver|lia].
  - simpl. rewrite IH. split.
    + intros [d' [Hd' Ht]]. exists d'. set_solver.
    + intros [d' [Hd' Ht]]. apply elem_of_cons in Hd' as [->|Hd']; [done|eauto].
Qed.

Lemma doc_freq_all (docs : list (list string)) (t : string) :
  doc_freq docs t = length docs ↔ ∀ d, d ∈ docs → t ∈ d.
Proof.
  induction docs as [|d docs IH]; [unfold doc_freq; simpl; set_solver|].
  rewrite doc_freq_cons. simpl. case_decide as Hin.
  - simpl. split.
    + intros Heq d' Hd'. apply elem_of_cons in Hd' as [->|Hd']; [done|].
      apply IH; [lia|done].
    + intros Hall. f_equal. apply IH. intros d' Hd'. apply Hall. set_solver.
  - simpl. pose proof (doc_freq_le docs t). split; [lia|].
    intros Hall. exfalso. apply Hin, Hall. set_solver.
Qed.

Lemma idf_standard_arg (n d : nat) :
  ((INR n - INR d + 0.5) / (INR d + 0.5)) + 1.0 = (INR n + 1) / (INR d + 0.5).
Proof.
  pose proof (pos_INR d).
  assert (Hh : 0.5 = / 2) by lra. assert (Hone : 1.0 = 1) by lra.
  rewrite Hh, Hone. field. lra.
Qed.

Lemma ln_le (x y : R) : 0 < x → x <= y → ln x <= ln y.
Proof.
  intros Hx Hle. destruct Hle as [Hlt|Heq].
  - left. apply ln_increasing; lra.
  - right. rewrite Heq. reflexivity.
Qed.

(** X4: of two terms present in the corpus, the one found in fewer
    documents gets the strictly larger IDF (the ubiquitous-term branch
    included). *)
Theorem IDF_rarer_term_larger (b : Bm25Base) (t1 t2 : string) (d1 d2 : nat) :
  reachable b → t1 ≠ "" → t2 ≠ "" →
  termFreqs b !! t1 = Some d1 → termFreqs b !! t2 = Some d2 → (d1 < d2)%nat →
  ∃ v1 v2, fst (IDF b t1) = Ok v1 ∧ fst (IDF b t2) = Ok v2 ∧ v2 < v1.
Proof.
  intros Hr Hne1 Hne2 H1 H2 Hlt. apply reachable_base_inv in Hr as Hinv.
  pose proof (base_inv_termFreqs b t1 d1 Hinv H1) as B1.
  pose proof (base_inv_termFreqs b t2 d2 Hinv H2) as B2.
  exists (idf_value b t1), (idf_value b t2).
  split; [by apply IDF_value|]. split; [by apply IDF_value|].
  unfold idf_value. rewrite H1, H2.
  destruct (Nat.eqb_spec d1 0) as [|_]; [lia|].
  destruct (Nat.eqb_spec d2 0) as [|_]; [lia|].
  destruct (Nat.eqb_spec d1 (corpusSize b)) as [|_]; [lia|].
  pose proof (idf_standard_pos (corpusSize b) d1 ltac:(lia)) as P1.
  destruct (Nat.eqb_spec d2 (corpusSize b)) as [_|Hn2].
  - pose proof (idf_all_docs_neg d2 ltac:(lia)). lra.
  - rewrite !idf_standard_arg. apply ln_increasing.
    + pose proof (pos_INR (corpusSize b)). pose proof (pos_INR d2).
      apply Rdiv_lt_0_compat; lra.
    + apply lt_INR in Hlt. pose proof (pos_INR d1). pose proof (pos_INR (corpusSize b)).
      unfold Rdiv. apply Rmult_lt_compat_l; [lra|]. apply Rinv_lt_contravar; nra.
Qed.

Lemma IDF_rarer_term_larger_witness :
  reachable shared_base ∧
  termFreqs shared_base !! "world" = Some 1%nat ∧
  termFreqs shared_base !! "hello" = Some 2%nat ∧
  ∃ v1 v2, fst (IDF shared_base "world") = Ok v1 ∧
           fst (IDF shared_base "hello") = Ok v2 ∧ v2 < v1.
Proof.
  assert (Hr : reachable shared_base)
    by (apply (reachable_new shared_corpus (Some split_space)); reflexivity).
  assert (H1 : termFreqs shared_base !! "world" = Some 1%nat) by reflexivity.
  assert (H2 : termFreqs shared_base !! "hello" = Some 2%nat) by reflexivity.
  split; [exact Hr|split; [exact H1|split; [exact H2|]]].
  apply (IDF_rarer_term_larger shared_base "world" "hello" 1 2 Hr);
    [discriminate|discriminate|exact H1|exact H2|lia].
Defined.

(** X5: a non-empty term gets a negative IDF exactly when it occurs in
    every document of the corpus. *)
Theorem IDF_negative_iff_everywhere (b : Bm25Base) (t : string) (v : R) :
  reachable b → t ≠ "" → fst (IDF b t) = Ok v →
  (v < 0 ↔ ∀ d, d ∈ corpus b → t ∈ d).
Proof.
  intros Hr Hne Hv. apply reachable_base_inv in Hr as Hinv.
  rewrite IDF_value in Hv by done. injection Hv as <-.
  rewrite <- doc_freq_all.
  destruct Hinv as [Hn [Hpos [Htf _]]].
  unfold idf_value. rewrite Htf, bump_None.
  pose proof (doc_freq_le (corpus b) t).
  case_decide as H0.
  - split; [lra|lia].
  - simpl. destruct (Nat.eqb_spec (doc_freq (corpus b) t) 0) as [|_]; [lia|].
    destruct (Nat.eqb_spec (doc_freq (corpus b) t) (corpusSize b)) as [He|He].
    + split; [lia|]. intros _. apply idf_all_docs_neg. lia.
    + split; [|lia]. intros Hlt.
      pose proof (idf_standard_pos (corpusSize b) (doc_freq (corpus b) t) ltac:(lia)).
      lra.
Qed.

Lemma IDF_negative_iff_everywhere_witness :
  reachable shared_base ∧
  ∃ v, fst (IDF shared_base "hello") = Ok v ∧ v < 0.
Proof.
  assert (Hr : reachable shared_base)
    by (apply (reachable_new shared_corpus (Some split_space)); reflexivity).
  split; [exact Hr|].
  exists (idf_value shared_base "hello").
  assert (Hv : fst (IDF shared_base "hello") = Ok (idf_value shared_base "hello"))
    by (apply IDF_value; [apply reachable_base_inv; exact Hr|discriminate]).
  split; [exact Hv|].
  apply (IDF_negative_iff_everywhere shared_base "hello" _ Hr); [discriminate|exact Hv|].
  apply Forall_forall.
  assert (Hc : corpus shared_base = [["hello";"world"];["hello";"there"]]) by reflexivity.
  rewrite Hc. repeat constructor.
Defined.

Lemma reachable_shape (b : Bm25Base) :
  reachable b →
  ∃ (docs : list string) (tok : string → list string), docs ≠ [] ∧ (∀ d, d ∈ docs → tok d ≠ []) ∧
    corpus b = map tok docs ∧ corpusSize b = length docs ∧
    docLengths b = map (λ d, length (tok d)) docs ∧
    avgDocLen b = INR (sum_list (map (λ d, length (tok d)) docs)) / INR (length docs).
Proof.
  intros Hr. destruct (reachable_origin b Hr) as (docs & tok & b0 & Hb0 & Hs).
  apply NewBM25Base_Ok_inv in Hb0 as (t & _ & Hne & Htok & tf & -> & _).
  destruct Hs as (Hc & Hn & Ha & Hd & _). simpl in *.
  exists docs, t. auto 10.
Qed.

(** X6: at every point of a receiver's life [DocLengths] has one entry per
    stored document, equal to that document's token count, and [AvgDocLen]
    is their sum divided by [CorpusSize]. *)
Theorem reachable_doc_statistics (b : Bm25Base) :
  reachable b →
  length (corpus b) = CorpusSize b ∧
  DocLengths b = map (@length string) (corpus b) ∧
  AvgDocLen b = INR (sum_list (DocLengths b)) / INR (CorpusSize b).
Proof.
  intros Hr.
  destruct (reachable_shape b Hr) as (docs & tok & _ & _ & Hc & Hn & Hd & Ha).
  unfold CorpusSize, DocLengths, AvgDocLen.
  rewrite Hc, Hn, Hd, Ha, length_map, map_map. auto.
Qed.

Lemma reachable_doc_statistics_witness :
  reachable (idf_calls two_docs_base ["hello"]) ∧
  DocLengths (idf_calls two_docs_base ["hello"]) =
    map (@length string) (corpus (idf_calls two_docs_base ["hello"])).
Proof.
  assert (Hr : reachable (idf_calls two_docs_base ["hello"])).
  { apply reachable_idf_calls.
    apply (reachable_new test_corpus (Some split_space)); reflexivity. }
  split; [exact Hr|]. apply reachable_doc_statistics. exact Hr.
Defined.

Lemma sum_list_ge_length (l : list nat) :
  (∀ x, x ∈ l → 1 ≤ x)%nat → (length l ≤ sum_list l)%nat.
Proof.
  induction l as [|x l IH]; intros Hl; simpl; [lia|].
  assert (1 ≤ x)%nat by (apply Hl; set_solver).
  assert (length l ≤ sum_list l)%nat by (apply IH; intros y Hy; apply Hl; set_solver).
  lia.
Qed.

(** X7: since construction rejects documents without tokens, every entry of
    [DocLengths] is at least 1 and so is [AvgDocLen]. *)
Theorem reachable_avgDocLen_ge_1 (b : Bm25Base) :
  reachable b → (∀ n, n ∈ DocLengths b → 1 ≤ n)%nat ∧ 1 <= AvgDocLen b.
Proof.
  intros Hr.
  destruct (reachable_shape b Hr) as (docs & tok & Hne & Htok & _ & _ & Hd & Ha).
  unfold DocLengths, AvgDocLen. rewrite Hd, Ha.
  assert (Hge : ∀ n, n ∈ map (λ d, length (tok d)) docs → (1 ≤ n)%nat).
  { intros n Hn. apply list_elem_of_fmap_1 in Hn as [d [-> Hd']].
    specialize (Htok d Hd'). destruct (tok d); [done|simpl; lia]. }
  split; [exact Hge|].
  apply sum_list_ge_length in Hge. rewrite length_map in Hge.
  apply le_INR in Hge.
  assert (Hpos : 0 < INR (length docs)).
  { apply lt_0_INR. destruct docs; [done|simpl; lia]. }
  unfold Rdiv. apply (Rmult_le_reg_r (INR (length docs))); [exact Hpos|].
  rewrite Rmult_assoc, Rinv_l by lra. lra.
Qed.

Lemma reachable_avgDocLen_ge_1_witness :
  reachable two_docs_base ∧ 1 <= AvgDocLen two_docs_base.
Proof.
  assert (Hr : reachable two_docs_base)
    by (apply (reachable_new test_corpus (Some split_space)); reflexivity).
  split; [exact Hr|]. apply reachable_avgDocLen_ge_1. exact Hr.
Defined.

(** X8: [termFreqs] has an entry for a term exactly when the term is a
    token of some stored document. *)
Theorem reachable_termFreqs_domain (b : Bm25Base) (t : string) :
  reachable b → (is_Some (termFreqs b !! t) ↔ ∃ d, d ∈ corpus b ∧ t ∈ d).
Proof.
  intros Hr. apply reachable_base_inv in Hr as (_ & _ & Htf & _).
  rewrite Htf, bump_None, <- doc_freq_pos.
  case_decide as H0; split; intros Hs; try done; by destruct Hs.
Qed.

Lemma reachable_termFreqs_domain_witness :
  reachable two_docs_base ∧ is_Some (termFreqs two_docs_base !! "test").
Proof.
  assert (Hr : reachable two_docs_base)
    by (apply (reachable_new test_corpus (Some split_space)); reflexivity).
  split; [exact Hr|]. apply (reachable_termFreqs_domain two_docs_base "test" Hr).
  exists ["this"; "is"; "a"; "test"]. split.
  - assert (Hc : corpus two_docs_base = [["hello";"world"];["this";"is";"a";"test"]])
      by reflexivity.
    rewrite Hc. set_solver.
  - set_solver.
Defined.

Lemma doc_freq_perm (docs1 docs2 : list (list string)) (t : string) :
  docs1 ≡ₚ docs2 → doc_freq docs1 t = doc_freq docs2 t.
Proof. intros Hp. unfold doc_freq. by rewrite Hp. Qed.

(** X9: the order of the documents only changes the order of [corpus] and
    [DocLengths]: building from a permutation of the documents succeeds as
    well, with the same [CorpusSize], [AvgDocLen] and [termFreqs]. *)
Theorem NewBM25Base_permutation (docs1 docs2 : list string)
    (tok : string -> list string) (b1 : Bm25Base) :
  NewBM25Base docs1 (Some tok) = Ok b1 → docs1 ≡ₚ docs2 →
  ∃ b2, NewBM25Base docs2 (Some tok) = Ok b2 ∧
        CorpusSize b2 = CorpusSize b1 ∧ AvgDocLen b2 = AvgDocLen b1 ∧
        termFreqs b2 = termFreqs b1 ∧ DocLengths b2 ≡ₚ DocLengths b1 ∧
        corpus b2 ≡ₚ corpus b1.
Proof.
  intros Hb1 Hp.
  apply NewBM25Base_Ok_inv in Hb1 as (t & Ht & Hne1 & Htok1 & tf1 & -> & Htf1).
  injection Ht as <-.
  assert (Hne2 : docs2 ≠ []).
  { intros ->. apply Permutation_nil_r in Hp. done. }
  assert (Htok2 : ∀ d, d ∈ docs2 → tok d ≠ []).
  { intros d Hd. apply Htok1. by rewrite Hp. }
  destruct (NewBM25Base_ok docs2 tok Hne2 Htok2) as [tf2 [Heq Htf2]].
  eexists. split; [exact Heq|]. unfold CorpusSize, AvgDocLen, DocLengths; simpl.
  assert (Hlen : length docs2 = length docs1) by (symmetry; by apply Permutation_length).
  assert (Hsum : sum_list (map (λ d, length (tok d)) docs2) =
                 sum_list (map (λ d, length (tok d)) docs1)) by (by rewrite Hp).
  rewrite Hlen, Hsum. split; [done|]. split; [done|]. split.
  - apply map_eq. intros x. rewrite Htf1, Htf2. f_equal.
    apply doc_freq_perm. by rewrite Hp.
  - split; by rewrite Hp.
Qed.

Lemma NewBM25Base_permutation_witness :
  NewBM25Base test_corpus (Some split_space) = Ok two_docs_base ∧
  test_corpus ≡ₚ ["this is a test"; "hello world"] ∧
  ∃ b2, NewBM25Base ["this is a test"; "hello world"] (Some split_space) = Ok b2 ∧
        termFreqs b2 = termFreqs two_docs_base.
Proof.
  assert (H1 : NewBM25Base test_corpus (Some split_space) = Ok two_docs_base)
    by reflexivity.
  assert (Hp : test_corpus ≡ₚ ["this is a test"; "hello world"])
    by (unfold test_corpus; apply perm_swap).
  split; [exact H1|split; [exact Hp|]].
  destruct (NewBM25Base_permutation _ _ _ _ H1 Hp) as (b2 & Hb2 & _ & _ & Htf & _).
  eauto.
Defined.

(** X10: no IDF exceeds [ln ((corpusSize + 1) / 1.5)], the value of a term
    found in exactly one document. *)
Theorem IDF_upper_bound (b : Bm25Base) (t : string) (v : R) :
  reachable b → fst (IDF b t) = Ok v →
  v <= ln ((INR (corpusSize b) + 1) / 1.5).
Proof.
  intros Hr Hv. apply reachable_base_inv in Hr as Hinv.
  destruct (String.eqb_spec t "") as [->|Hne].
  { destruct (IDF_cases b "") as [[_ Heq]|[? _]]; [|done].
    rewrite Heq in Hv. discriminate. }
  rewrite IDF_value in Hv by done. injection Hv as <-.
  pose proof Hinv as (_ & Hpos & _ & _).
  assert (Hn1 : 1 <= INR (corpusSize b)) by (apply (le_INR 1); lia).
  assert (Hbound : 0 < ln ((INR (corpusSize b) + 1) / 1.5)).
  { apply ln_pos. apply (Rmult_lt_reg_r 1.5); [lra|].
    unfold Rdiv. rewrite Rmult_assoc, Rinv_l by lra. lra. }
  unfold idf_value. destruct (termFreqs b !! t) as [k|] eqn:Hk; [|lra].
  pose proof (base_inv_termFreqs b t k Hinv Hk) as Hb.
  destruct (Nat.eqb_spec k 0) as [|_]; [lra|].
  destruct (Nat.eqb_spec k (corpusSize b)) as [_|Hn].
  - pose proof (idf_all_docs_neg k ltac:(lia)). lra.
  - rewrite idf_standard_arg. apply ln_le.
    + apply Rdiv_lt_0_compat; [lra|]. pose proof (pos_INR k). lra.
    + assert (Hk1 : 1 <= INR k) by (apply (le_INR 1); lia).
      unfold Rdiv. apply Rmult_le_compat_l; [lra|].
      apply Rinv_le_contravar; lra.
Qed.

Lemma IDF_upper_bound_witness :
  reachable two_docs_base ∧
  ∃ v, fst (IDF two_docs_base "hello") = Ok v ∧
       v <= ln ((INR (corpusSize two_docs_base) + 1) / 1.5).
Proof.
  assert (Hr : reachable two_docs_base)
    by (apply (reachable_new test_corpus (Some split_space)); reflexivity).
  assert (Hv : fst (IDF two_docs_base "hello") = Ok (idf_value two_docs_base "hello"))
    by (apply IDF_value; [apply reachable_base_inv; exact Hr|discriminate]).
  split; [exact Hr|]. eexists. split; [exact Hv|].
  exact (IDF_upper_bound two_docs_base "hello" _ Hr Hv).
Defined.

(** ** The BM25L scorer *)

Lemma NewBM25L_ok (docs : list string) (tok : option (string -> list string)) (k1 b : R)
    (s : BM25L.scorer) :
  BM25L.NewBM25L docs tok k1 b = BM25L.SOk s →
  ∃ bs, NewBM25Base docs tok = Ok bs ∧ s = BM25L.mkScorer docs bs k1 b.
Proof.
  unfold BM25L.NewBM25L.
  destruct (Rlt_dec k1 0); [discriminate|].
  destruct (Rlt_dec b 0); [discriminate|].
  destruct (Rlt_dec 1 b); [discriminate|].
  destruct (NewBM25Base docs tok) as [bs|e]; [|discriminate].
  intros H. injection H as <-. eauto.
Qed.

Lemma score_loop_state (s : BM25L.scorer) (q : list string) (ds : list (list string))
    (acc : list R) :
  snd (BM25L.score_loop s q ds acc) = BM25L.set_base s (idf_calls (BM25L.base s) q).
Proof.
  revert s acc. induction q as [|t q IH]; intros s acc.
  - destruct s; reflexivity.
  - cbn [BM25L.score_loop]. rewrite IH. reflexivity.
Qed.

Lemma GetScores_state (s : BM25L.scorer) (q : list string) :
  snd (BM25L.GetScores s q) = s ∨
  ∃ ts, snd (BM25L.GetScores s q) = BM25L.set_base s (idf_calls (BM25L.base s) ts).
Proof.
  destruct q as [|t q]; [by left|right].
  exists (t :: q). apply score_loop_state.
Qed.

Lemma GetBatchScores_state (s : BM25L.scorer) (q : list string) (ids : list Z) :
  snd (BM25L.GetBatchScores s q ids) = s ∨
  ∃ ts, snd (BM25L.GetBatchScores s q ids) = BM25L.set_base s (idf_calls (BM25L.base s) ts).
Proof.
  destruct q as [|t q]; [by left|].
  destruct ids as [|id ids]; [by left|].
  unfold BM25L.GetBatchScores.
  destruct (BM25L.first_invalid _ _); [by left|right].
  exists (t :: q). apply score_loop_state.
Qed.

Lemma GetTopN_state (s : BM25L.scorer) (q : list string) (n : Z) :
  snd (BM25L.GetTopN s q n) = s ∨
  ∃ ts, snd (BM25L.GetTopN s q n) = BM25L.set_base s (idf_calls (BM25L.base s) ts).
Proof.
  destruct q as [|t q]; [by left|].
  unfold BM25L.GetTopN. destruct (Z.leb n 0); [by left|].
  destruct (GetScores_state s (t :: q)) as [He|[ts He]];
    destruct (BM25L.GetScores s (t :: q)) as [[sc|e] s'] eqn:Hg; simpl in *; subst; eauto.
Qed.

Lemma scorer_inv_step (s : BM25L.scorer) (ts : list string) :
  reachable (BM25L.base s) ∧
  corpus (BM25L.base s) = map (tokenizer (BM25L.base s)) (BM25L.docs s) →
  let s' := BM25L.set_base s (idf_calls (BM25L.base s) ts) in
  reachable (BM25L.base s') ∧
  corpus (BM25L.base s') = map (tokenizer (BM25L.base s')) (BM25L.docs s').
Proof.
  intros [Hr Hc]. simpl.
  destruct (idf_calls_same_stats (BM25L.base s) ts) as (Hc' & _ & _ & _ & _ & Ht).
  split; [by apply reachable_idf_calls|]. rewrite Hc', Ht. exact Hc.
Qed.

Lemma reachable_scorer_inv (s : BM25L.scorer) :
  BM25L.reachable_scorer s →
  reachable (BM25L.base s) ∧
  corpus (BM25L.base s) = map (tokenizer (BM25L.base s)) (BM25L.docs s).
Proof.
  induction 1 as [docs tok k1 b s Hs|s q _ IH|s q ids _ IH|s q n _ IH|s t _ IH].
  - apply NewBM25L_ok in Hs as [bs [Hb ->]]. simpl. split; [econstructor; eauto|].
    apply NewBM25Base_Ok_inv in Hb as [t [_ [_ [_ [tf [-> _]]]]]]. reflexivity.
  - destruct (GetScores_state s q) as [->|[ts ->]]; [done|by apply scorer_inv_step].
  - destruct (GetBatchScores_state s q ids) as [->|[ts ->]]; [done|by apply scorer_inv_step].
  - destruct (GetTopN_state s q n) as [->|[ts ->]]; [done|by apply scorer_inv_step].
  - apply (scorer_inv_step s [t]) in IH. exact IH.
Qed.

Lemma reachable_scorer_size (s : BM25L.scorer) :
  BM25L.reachable_scorer s →
  corpusSize (BM25L.base s) = length (corpus (BM25L.base s)) ∧
  length (BM25L.docs s) = corpusSize (BM25L.base s).
Proof.
  intros Hs. destruct (reachable_scorer_inv s Hs) as [Hr Hc].
  destruct (reachable_base_inv _ Hr) as [Hn _].
  rewrite Hn, Hc, length_map. done.
Qed.

Lemma IDF_after (b : Bm25Base) (t0 t : string) :
  reachable b → fst (IDF (snd (IDF b t0)) t) = fst (IDF b t).
Proof.
  intros Hr. destruct (String.eqb_spec t "") as [->|Hne].
  - destruct (IDF_cases (snd (IDF b t0)) "") as [[_ ->]|[? _]]; [|done].
    destruct (IDF_cases b "") as [[_ ->]|[? _]]; done.
  - assert (Hr' : reachable (snd (IDF b t0))) by (constructor; exact Hr).
    rewrite !IDF_value by (first [done | by apply reachable_base_inv]).
    f_equal. apply idf_value_same_stats, IDF_same_stats.
Qed.

Lemma term_score_set_base (s : BM25L.scorer) (t0 t : string) (d : list string) :
  reachable (BM25L.base s) →
  BM25L.term_score (BM25L.set_base s (snd (IDF (BM25L.base s) t0))) t d =
  BM25L.term_score s t d.
Proof.
  intros Hr. unfold BM25L.term_score, BM25L.contribution, BM25L.set_base.
  cbn [BM25L.base BM25L.b BM25L.k1].
  rewrite IDF_after by exact Hr.
  destruct (IDF_same_stats (BM25L.base s) t0) as (_ & _ & Ha & _). rewrite Ha.
  reflexivity.
Qed.

Lemma doc_score_set_base (s : BM25L.scorer) (t0 : string) (q d : list string) :
  reachable (BM25L.base s) →
  BM25L.doc_score (BM25L.set_base s (snd (IDF (BM25L.base s) t0))) q d =
  BM25L.doc_score s q d.
Proof.
  intros Hr. unfold BM25L.doc_score.
  induction q as [|t q IH]; simpl; [done|].
  rewrite IH, term_score_set_base by exact Hr. done.
Qed.

Lemma zip_plus_zero (acc : list R) (ds : list (list string)) (f : list string → R) :
  (∀ d, f d = 0) → length acc = length ds → zip_with Rplus acc (map f ds) = acc.
Proof.
  intros Hf. revert ds.
  induction acc as [|a acc IH]; intros [|d ds] Hl; simpl in *; try done.
  rewrite Hf, Rplus_0_r, IH by lia. done.
Qed.

Lemma zip_plus_assoc (acc : list R) (ds : list (list string)) (f g : list string → R) :
  zip_with Rplus (zip_with Rplus acc (map f ds)) (map g ds) =
  zip_with Rplus acc (map (λ d, f d + g d) ds).
Proof.
  revert ds. induction acc as [|a acc IH]; intros [|d ds]; simpl; try done.
  rewrite Rplus_assoc, IH. done.
Qed.

Lemma zip_replicate_zero (ds : list (list string)) (f : list string → R) :
  zip_with Rplus (replicate (length ds) 0) (map f ds) = map f ds.
Proof.
  induction ds as [|d ds IH]; simpl; [done|]. rewrite Rplus_0_l, IH. done.
Qed.

Lemma score_loop_value (s : BM25L.scorer) (q : list string) (ds : list (list string))
    (acc : list R) :
  reachable (BM25L.base s) → length acc = length ds →
  fst (BM25L.score_loop s q ds acc) = zip_with Rplus acc (map (BM25L.doc_score s q) ds).
Proof.
  revert s acc. induction q as [|t q IH]; intros s acc Hr Hl.
  - simpl. symmetry. apply zip_plus_zero; [reflexivity|exact Hl].
  - cbn [BM25L.score_loop]. rewrite IH.
    + rewrite zip_plus_assoc. f_equal. apply map_ext. intros d.
      rewrite doc_score_set_base by exact Hr. reflexivity.
    + simpl. constructor. exact Hr.
    + rewrite length_zip_with, length_map. lia.
Qed.

Lemma GetScores_value (s : BM25L.scorer) (q : list string) :
  BM25L.reachable_scorer s → q ≠ [] →
  fst (BM25L.GetScores s q) = BM25L.SOk (map (BM25L.doc_score s q) (corpus (BM25L.base s))).
Proof.
  intros Hs Hq. destruct (reachable_scorer_inv s Hs) as [Hr _].
  destruct (reachable_scorer_size s Hs) as [Hn _].
  destruct q as [|t q]; [done|]. unfold BM25L.GetScores. cbn [fst].
  rewrite score_loop_value by (first [exact Hr | rewrite length_replicate; exact Hn]).
  rewrite Hn, zip_replicate_zero. done.
Qed.

Lemma term_score_absent (s : BM25L.scorer) (t : string) (d : list string) :
  t ∉ d → BM25L.term_score s t d = 0.
Proof.
  intros Ht. unfold BM25L.term_score, BM25L.contribution, BM25L.tf.
  assert (H0 : filter (λ x, x = t) d = []).
  { induction d as [|a d IH]; [done|]. rewrite filter_cons.
    case_decide as Ha; [subst; set_solver|]. apply IH. set_solver. }
  rewrite H0. simpl. unfold Rdiv. ring.
Qed.

Lemma before_b_true (sc : list R) (i j : nat) :
  BM25L.before_b sc i j = true → BM25L.before sc i j.
Proof.
  unfold BM25L.before_b, BM25L.before.
  destruct (Rlt_dec _ _) as [H1|H1]; [by left|].
  destruct (Rlt_dec _ _) as [H2|H2]; [discriminate|].
  intros Hl. apply Nat.ltb_lt in Hl. right. split; [lra|exact Hl].
Qed.

Lemma before_b_false (sc : list R) (i j : nat) :
  BM25L.before_b sc i j = false → i ≠ j → BM25L.before sc j i.
Proof.
  unfold BM25L.before_b, BM25L.before.
  destruct (Rlt_dec _ _) as [H1|H1]; [discriminate|].
  destruct (Rlt_dec _ _) as [H2|H2]; [by left|].
  intros Hl Hne. apply Nat.ltb_ge in Hl. right. split; [lra|lia].
Qed.

Lemma before_trans (sc : list R) (i j k : nat) :
  BM25L.before sc i j → BM25L.before sc j k → BM25L.before sc i k.
Proof.
  unfold BM25L.before. intros [H1|[H1 H1']] [H2|[H2 H2']].
  - left. lra.
  - left. lra.
  - left. lra.
  - right. split; [lra|lia].
Qed.

Lemma insert_ranked_perm (sc : list R) (i : nat) (l : list nat) :
  BM25L.insert_ranked sc i l ≡ₚ i :: l.
Proof.
  induction l as [|j l IH]; simpl; [done|].
  destruct (BM25L.before_b sc i j); [done|].
  eapply perm_trans; [apply perm_skip; exact IH|apply perm_swap].
Qed.

Lemma insert_ranked_sorted (sc : list R) (i : nat) (l : list nat) :
  StronglySorted (BM25L.before sc) l → i ∉ l →
  StronglySorted (BM25L.before sc) (BM25L.insert_ranked sc i l).
Proof.
  induction l as [|j l IH]; intros Hs Hi; simpl.
  - repeat constructor.
  - apply StronglySorted_inv in Hs as [Hs Hf].
    assert (Hij : i ≠ j) by set_solver.
    assert (Hil : i ∉ l) by set_solver.
    destruct (BM25L.before_b sc i j) eqn:Hb.
    + apply before_b_true in Hb.
      constructor; [constructor; done|].
      constructor; [exact Hb|].
      eapply Forall_impl; [exact Hf|]. intros x Hx. eapply before_trans; eauto.
    + apply before_b_false in Hb; [|exact Hij].
      constructor; [by apply IH|].
      rewrite insert_ranked_perm. constructor; done.
Qed.

Lemma fold_insert_ranked (sc : list R) (l : list nat) :
  NoDup l →
  fold_right (BM25L.insert_ranked sc) [] l ≡ₚ l ∧
  StronglySorted (BM25L.before sc) (fold_right (BM25L.insert_ranked sc) [] l).
Proof.
  induction l as [|x l IH]; intros Hnd; simpl; [split; constructor|].
  apply NoDup_cons in Hnd as [Hx Hnd]. destruct (IH Hnd) as [Hp Hs].
  split.
  - rewrite insert_ranked_perm, Hp. done.
  - apply insert_ranked_sorted; [done|]. rewrite Hp. done.
Qed.

Lemma rank_props (sc : list R) :
  BM25L.rank sc ≡ₚ seq 0 (length sc) ∧ StronglySorted (BM25L.before sc) (BM25L.rank sc).
Proof. apply fold_insert_ranked, NoDup_seq. Qed.

Lemma StronglySorted_app_inv {A} (Rl : A → A → Prop) (l1 l2 : list A) :
  StronglySorted Rl (l1 ++ l2) → ∀ x y, x ∈ l1 → y ∈ l2 → Rl x y.
Proof.
  induction l1 as [|a l1 IH]; intros Hs x y Hx Hy; [set_solver|].
  simpl in Hs. apply StronglySorted_inv in Hs as [Hs Hf].
  apply elem_of_cons in Hx as [->|Hx].
  - rewrite Forall_forall in Hf. apply Hf. set_solver.
  - eauto.
Qed.

Lemma StronglySorted_lookup {A} (Rl : A → A → Prop) (l : list A) (k1 k2 : nat) (x y : A) :
  StronglySorted Rl l → (k1 < k2)%nat → l !! k1 = Some x → l !! k2 = Some y → Rl x y.
Proof.
  revert k1 k2. induction l as [|a l IH]; intros k1 k2 Hs Hk H1 H2; [done|].
  apply StronglySorted_inv in Hs as [Hs Hf].
  destruct k1 as [|k1], k2 as [|k2]; try lia; simpl in *.
  - injection H1 as <-. rewrite Forall_forall in Hf. apply Hf.
    eapply list_elem_of_lookup_2; eauto.
  - eapply (IH k1 k2); eauto. lia.
Qed.

Lemma first_invalid_Some (n : nat) (ids : list Z) (id : Z) :
  BM25L.first_invalid n ids = Some id → id ∈ ids ∧ (id < 0 ∨ Z.of_nat n ≤ id)%Z.
Proof.
  induction ids as [|x ids IH]; simpl; [discriminate|].
  destruct (orb _ _) eqn:Hb.
  - intros H. injection H as <-. split; [set_solver|].
    apply orb_true_iff in Hb as [Hb|Hb]; [apply Z.ltb_lt in Hb|apply Z.leb_le in Hb]; lia.
  - intros H. destruct (IH H) as [Hi Hv]. split; [set_solver|done].
Qed.

Lemma first_invalid_None (n : nat) (ids : list Z) :
  BM25L.first_invalid n ids = None → ∀ id, id ∈ ids → (0 ≤ id < Z.of_nat n)%Z.
Proof.
  induction ids as [|x ids IH]; simpl; intros H id Hid; [set_solver|].
  destruct (orb _ _) eqn:Hb; [discriminate|].
  apply orb_false_iff in Hb as [H1 H2]. apply Z.ltb_ge in H1. apply Z.leb_gt in H2.
  apply elem_of_cons in Hid as [->|Hid]; [lia|eauto].
Qed.

Lemma zip_replicate_zero_gen {A} (l : list A) (f : A → R) :
  zip_with Rplus (replicate (length l) 0) (map f l) = map f l.
Proof.
  induction l as [|x l IH]; simpl; [done|]. rewrite Rplus_0_l, IH. done.
Qed.

Lemma test_scorer_reachable : BM25L.reachable_scorer BM25L.test_scorer.
Proof.
  apply (BM25L.rs_new test_corpus (Some split_space) 1.2 0.75).
  unfold BM25L.NewBM25L.
  destruct (Rlt_dec 1.2 0); [lra|].
  destruct (Rlt_dec 0.75 0); [lra|].
  destruct (Rlt_dec 1 0.75); [lra|].
  reflexivity.
Qed.

(** C1: for every scorer built by [NewBM25L] (and used since), [GetScores]
    fails with [EmptyQuery] on the empty query; on a non-empty query it
    succeeds with one score per corpus document ([CorpusSize] of them), in
    document-ID order, the score of a document being the sum over the query
    terms of their contributions to it; a term absent from a document
    contributes 0 to it. *)
Theorem GetScores_spec (s : BM25L.scorer) (query : list string) :
  BM25L.reachable_scorer s →
  (query = [] → fst (BM25L.GetScores s query) = BM25L.SErr BM25L.ErrEmptyQuery) ∧
  (query ≠ [] → ∃ scores,
     fst (BM25L.GetScores s query) = BM25L.SOk scores ∧
     length scores = CorpusSize (BM25L.base s) ∧
     ∀ i d, corpus (BM25L.base s) !! i = Some d →
       scores !! i = Some (BM25L.doc_score s query d)) ∧
  (∀ t d, t ∉ d → BM25L.term_score s t d = 0).
Proof.
  intros Hs. split_and!.
  - intros ->. reflexivity.
  - intros Hq. exists (map (BM25L.doc_score s query) (corpus (BM25L.base s))).
    destruct (reachable_scorer_size s Hs) as [Hn _]. split_and!.
    + by apply GetScores_value.
    + rewrite length_map. unfold CorpusSize. lia.
    + intros i d Hd. rewrite list_lookup_fmap, Hd. reflexivity.
  - intros t d. apply term_score_absent.
Qed.

Lemma GetScores_spec_witness :
  BM25L.reachable_scorer BM25L.test_scorer ∧ ["hello"] ≠ [] ∧
  ∃ scores, fst (BM25L.GetScores BM25L.test_scorer ["hello"]) = BM25L.SOk scores ∧
            length scores = 2%nat.
Proof.
  split; [exact test_scorer_reachable|]. split; [discriminate|].
  destruct (proj1 (proj2 (GetScores_spec BM25L.test_scorer ["hello"] test_scorer_reachable)))
    as [scores [H1 [H2 _]]]; [discriminate|].
  exists scores. split; [exact H1|]. rewrite H2. reflexivity.
Defined.

(** C2: for every scorer built by [NewBM25L] (and used since), [GetTopN]
    fails with [EmptyQuery] on the empty query and with [InvalidN] when
    [n <= 0]; otherwise it succeeds with the original texts of
    [min(n, CorpusSize)] distinct documents, ranked by the scores of
    [GetScores] in descending order with ties by ascending document ID,
    each of them ranked before every document it leaves out. *)
Theorem GetTopN_spec (s : BM25L.scorer) (query : list string) (n : Z) :
  BM25L.reachable_scorer s →
  (query = [] → fst (BM25L.GetTopN s query n) = BM25L.SErr BM25L.ErrEmptyQuery) ∧
  (query ≠ [] → (n ≤ 0)%Z → fst (BM25L.GetTopN s query n) = BM25L.SErr BM25L.ErrInvalidN) ∧
  (query ≠ [] → (0 < n)%Z → ∃ scores ids texts,
     fst (BM25L.GetScores s query) = BM25L.SOk scores ∧
     fst (BM25L.GetTopN s query n) = BM25L.SOk texts ∧
     length ids = Nat.min (Z.to_nat n) (CorpusSize (BM25L.base s)) ∧
     length texts = length ids ∧
     NoDup ids ∧
     (∀ i, i ∈ ids → (i < CorpusSize (BM25L.base s))%nat) ∧
     (∀ k i, ids !! k = Some i →
        ∃ text, BM25L.docs s !! i = Some text ∧ texts !! k = Some text) ∧
     (∀ k1 k2 i j, (k1 < k2)%nat → ids !! k1 = Some i → ids !! k2 = Some j →
        BM25L.before scores i j) ∧
     (∀ i j, i ∈ ids → (j < CorpusSize (BM25L.base s))%nat → j ∉ ids →
        BM25L.before scores i j)).
Proof.
  intros Hs. destruct (reachable_scorer_size s Hs) as [Hn Hd].
  unfold CorpusSize. split_and!.
  - intros ->. reflexivity.
  - intros Hq Hle. destruct query as [|t q]; [done|].
    unfold BM25L.GetTopN. apply Z.leb_le in Hle. rewrite Hle. reflexivity.
  - intros Hq Hlt. pose proof (GetScores_value s query Hs Hq) as Hv.
    set (scores := map (BM25L.doc_score s query) (corpus (BM25L.base s))) in Hv.
    assert (Hls : length scores = corpusSize (BM25L.base s)).
    { unfold scores. rewrite length_map. lia. }
    set (r := BM25L.rank scores).
    destruct (rank_props scores) as [Hp Hsort]. fold r in Hp, Hsort.
    set (ids := take (Z.to_nat n) r).
    set (texts := map (λ i, default "" (BM25L.docs s !! i)) ids).
    assert (Hr : r = ids ++ drop (Z.to_nat n) r) by (symmetry; apply take_drop).
    assert (Hin : ∀ j, j ∈ r ↔ (j < corpusSize (BM25L.base s))%nat).
    { intros j. rewrite Hp, elem_of_seq, Hls. lia. }
    assert (Hnd : NoDup r) by (rewrite Hp; apply NoDup_seq).
    rewrite Hr in Hnd. apply NoDup_app in Hnd as [Hnd1 [Hdisj _]].
    exists scores, ids, texts. split_and!.
    + exact Hv.
    + destruct query as [|t q]; [done|]. unfold BM25L.GetTopN.
      assert (Hz : Z.leb n 0 = false) by (apply Z.leb_gt; lia). rewrite Hz.
      destruct (BM25L.GetScores s (t :: q)) as [res s'] eqn:Hg.
      simpl in Hv. subst res. reflexivity.
    + unfold ids. rewrite length_take, (Permutation_length Hp), length_seq, Hls. done.
    + unfold texts. rewrite length_map. done.
    + exact Hnd1.
    + intros i Hi. apply Hin. rewrite Hr. set_solver.
    + intros k i Hk.
      assert (Hi : (i < length (BM25L.docs s))%nat).
      { rewrite Hd. apply Hin. rewrite Hr. apply list_elem_of_lookup_2 in Hk. set_solver. }
      apply lookup_lt_is_Some_2 in Hi as [text Ht].
      exists text. split; [exact Ht|].
      unfold texts. rewrite list_lookup_fmap, Hk. simpl. rewrite Ht. reflexivity.
    + intros k1 k2 i j Hk Hi Hj.
      unfold ids in Hi, Hj. rewrite lookup_take in Hi, Hj.
      case_decide; [|discriminate]. case_decide; [|discriminate].
      eapply StronglySorted_lookup; [exact Hsort|exact Hk|exact Hi|exact Hj].
    + intros i j Hi Hj Hnj.
      assert (Hjr : j ∈ r) by (apply Hin; exact Hj).
      rewrite Hr in Hsort, Hjr. apply elem_of_app in Hjr as [Hjr|Hjr]; [done|].
      eapply StronglySorted_app_inv; eauto.
Qed.

Lemma GetTopN_spec_witness :
  BM25L.reachable_scorer BM25L.test_scorer ∧ ["hello"] ≠ [] ∧ (0 < 1)%Z ∧
  ∃ texts, fst (BM25L.GetTopN BM25L.test_scorer ["hello"] 1) = BM25L.SOk texts ∧
           length texts = 1%nat.
Proof.
  split; [exact test_scorer_reachable|]. split; [discriminate|]. split; [lia|].
  destruct (proj2 (proj2 (GetTopN_spec BM25L.test_scorer ["hello"] 1 test_scorer_reachable)))
    as (scores & ids & texts & _ & H1 & H2 & H3 & _); [discriminate|lia|].
  exists texts. split; [exact H1|]. rewrite H3, H2. reflexivity.
Defined.

(** C3: for every scorer built by [NewBM25L] (and used since),
    [GetBatchScores] fails with [EmptyQuery] on the empty query, with
    [EmptyDocumentIDs] on an empty list of IDs, and with [InvalidDocumentID]
    naming one of the given IDs that is negative or [>= CorpusSize] when
    there is one; otherwise it succeeds with one score per given ID, in the
    order of the IDs, each the score [GetScores] gives that document. *)
Theorem GetBatchScores_spec (s : BM25L.scorer) (query : list string) (ids : list Z) :
  BM25L.reachable_scorer s →
  (query = [] → fst (BM25L.GetBatchScores s query ids) = BM25L.SErr BM25L.ErrEmptyQuery) ∧
  (query ≠ [] → ids = [] →
     fst (BM25L.GetBatchScores s query ids) = BM25L.SErr BM25L.ErrEmptyDocumentIDs) ∧
  (query ≠ [] →
     (∃ id, id ∈ ids ∧ (id < 0 ∨ Z.of_nat (CorpusSize (BM25L.base s)) ≤ id)%Z) →
     ∃ id, fst (BM25L.GetBatchScores s query ids) = BM25L.SErr (BM25L.ErrInvalidDocumentID id) ∧
           id ∈ ids ∧ (id < 0 ∨ Z.of_nat (CorpusSize (BM25L.base s)) ≤ id)%Z) ∧
  (query ≠ [] → ids ≠ [] →
     (∀ id, id ∈ ids → (0 ≤ id < Z.of_nat (CorpusSize (BM25L.base s)))%Z) →
     ∃ batch full,
       fst (BM25L.GetBatchScores s query ids) = BM25L.SOk batch ∧
       fst (BM25L.GetScores s query) = BM25L.SOk full ∧
       length batch = length ids ∧
       ∀ k id, ids !! k = Some id → batch !! k = full !! Z.to_nat id).
Proof.
  intros Hs. destruct (reachable_scorer_size s Hs) as [Hn _].
  destruct (reachable_scorer_inv s Hs) as [Hr _].
  unfold CorpusSize. split_and!.
  - intros ->. reflexivity.
  - intros Hq ->. destruct query; [done|]. reflexivity.
  - intros Hq (id & Hid & Hbad). destruct query as [|t q]; [done|].
    destruct ids as [|x ids]; [set_solver|].
    unfold BM25L.GetBatchScores.
    destruct (BM25L.first_invalid _ (x :: ids)) as [id'|] eqn:Hf.
    + exists id'. split; [reflexivity|]. by apply first_invalid_Some in Hf.
    + pose proof (first_invalid_None _ _ Hf id Hid). lia.
  - intros Hq Hne Hok.
    exists (map (λ id, BM25L.doc_score s query
                         (default [] (corpus (BM25L.base s) !! Z.to_nat id))) ids).
    exists (map (BM25L.doc_score s query) (corpus (BM25L.base s))).
    split_and!.
    + destruct query as [|t q]; [done|]. destruct ids as [|x ids]; [done|].
      unfold BM25L.GetBatchScores.
      destruct (BM25L.first_invalid _ (x :: ids)) as [id'|] eqn:Hf.
      { apply first_invalid_Some in Hf as [Hid Hbad].
        pose proof (Hok id' Hid). lia. }
      cbn [fst]. f_equal.
      rewrite score_loop_value by (first [exact Hr | rewrite length_replicate, length_map; done]).
      rewrite map_map. apply zip_replicate_zero_gen.
    + by apply GetScores_value.
    + rewrite length_map. done.
    + intros k id Hk. rewrite !list_lookup_fmap, Hk. simpl.
      assert (Hrange := Hok id (list_elem_of_lookup_2 _ _ _ Hk)).
      assert (Hlt : (Z.to_nat id < length (corpus (BM25L.base s)))%nat) by lia.
      apply lookup_lt_is_Some_2 in Hlt as [d Hd]. rewrite Hd. reflexivity.
Qed.

Lemma GetBatchScores_spec_witness :
  BM25L.reachable_scorer BM25L.test_scorer ∧ ["hello"] ≠ [] ∧
  ∃ id, fst (BM25L.GetBatchScores BM25L.test_scorer ["hello"] [0%Z; 5%Z]) =
          BM25L.SErr (BM25L.ErrInvalidDocumentID id) ∧ id = 5%Z.
Proof.
  split; [exact test_scorer_reachable|]. split; [discriminate|].
  destruct (proj1 (proj2 (proj2
             (GetBatchScores_spec BM25L.test_scorer ["hello"] [0%Z; 5%Z] test_scorer_reachable))))
    as (id & H1 & H2 & H3).
  - discriminate.
  - exists 5%Z. split; [set_solver|]. right. vm_compute. discriminate.
  - exists id. split; [exact H1|].
    assert (Hc : BM25L.first_invalid 2 [0%Z; 5%Z] = Some 5%Z) by reflexivity.
    apply elem_of_cons in H2 as [->|H2].
    + exfalso. destruct H3 as [H3|H3]; [lia|]. revert H3. vm_compute. intros H; apply H; reflexivity.
    + apply elem_of_cons in H2 as [->|H2]; [reflexivity|set_solver].
Defined.
